(** * Verification of two1/lib/wallet/socket_rpc_server.py

    A shallow embedding of the wallet daemon's Unix-socket JSON-RPC layer:
    the per-connection handler loop of [UnixSocketJSONRPCServer.JSONRPCHandler],
    the server constructor with its liveness probe, and the client proxy
    [UnixSocketServerProxy].  The jsonrpcserver / jsonrpcclient libraries, the
    operating system (poll, recv, sendall, connect) and the request callback
    are not part of the repository; their outcomes are inputs of the model. *)

From Stdlib Require Import List Bool Arith Lia ZArith NArith String.
From Stdlib Require Import Strings.Byte Ascii.
Import ListNotations.
Open Scope list_scope.
Set Warnings "-register-all".

(* ------------------------------------------------------------------ *)
(** ** Python exceptions *)

(** The [OSError] subclasses the socket calls of the module can raise. *)
Inductive oserror :=
| FileNotFoundError
| ConnectionRefusedError
| ConnectionResetError
| ConnectionAbortedError
| BrokenPipeError
| PermissionError
| OtherOSError.

(** [isinstance(e, ConnectionError)]. *)
Definition is_ConnectionError (o : oserror) : bool :=
  match o with
  | ConnectionRefusedError | ConnectionResetError
  | ConnectionAbortedError | BrokenPipeError => true
  | _ => false
  end.

(** Every exception the module raises or catches; all are [Exception]s. *)
Inductive exc :=
| OSErr (o : oserror)
| UnicodeDecodeError
| AttributeError         (* [None.debug(...)]: a call on a missing logger *)
| UnboundLocalError      (* reading the local [response] before assignment *)
| IndexError             (* [reply[-1]] on an empty [bytes] *)
| UnicodeEncodeError     (* [str.encode()] of a lone surrogate *)
| DaemonRunningError
| DaemonNotRunningError
| LibraryError.          (* anything raised by a callback or library call *)

(** Modelled from the spec: the module [two1.lib.wallet.exceptions] is not
    part of the sources.  The spec names [DaemonAlreadyRunning] and
    [DaemonNotRunning] as the wallet's own failures of startup and of
    connecting; they are not socket errors, so an [except] clause naming an
    [OSError] subclass never catches them. *)
Definition except_oserror (o : oserror) (e : exc) : bool :=
  match e with
  | OSErr o' =>
      match o, o' with
      | FileNotFoundError, FileNotFoundError
      | ConnectionRefusedError, ConnectionRefusedError
      | ConnectionResetError, ConnectionResetError
      | ConnectionAbortedError, ConnectionAbortedError
      | BrokenPipeError, BrokenPipeError
      | PermissionError, PermissionError
      | OtherOSError, OtherOSError => true
      | _, _ => false
      end
  | _ => false
  end.

(* ------------------------------------------------------------------ *)
(** ** Bytes: [bytes.strip()] and [bytes.decode()] *)

(** [bytes.isspace] on one byte: b' \t\n\r\x0b\x0c'. *)
Definition py_isspace (b : byte) : bool :=
  match b with
  | x20 | x09 | x0a | x0d | x0b | x0c => true
  | _ => false
  end.

Fixpoint lstrip (l : list byte) : list byte :=
  match l with
  | b :: r => if py_isspace b then lstrip r else l
  | [] => []
  end.

(** [bytes.strip()] with no argument. *)
Definition strip (l : list byte) : list byte := rev (lstrip (rev (lstrip l))).

(** A Python [str]: its code points. *)
Definition pystr := list N.

Local Open Scope N_scope.

Definition is_cont (c : N) : bool := (128 <=? c) && (c <? 192).
Definition in_range (lo hi c : N) : bool := (lo <=? c) && (c <=? hi).

(** [bytes.decode()] with the strict UTF-8 codec: [None] when it raises
    [UnicodeDecodeError] (overlong forms, surrogates and code points above
    U+10FFFF are rejected). *)
Fixpoint utf8_decode (l : list N) : option pystr :=
  match l with
  | [] => Some []
  | b0 :: r0 =>
      if b0 <? 128 then option_map (cons b0) (utf8_decode r0)
      else if in_range 194 223 b0 then
        match r0 with
        | b1 :: r1 =>
            if is_cont b1
            then option_map (cons ((b0 - 192) * 64 + (b1 - 128))) (utf8_decode r1)
            else None
        | [] => None
        end
      else if in_range 224 239 b0 then
        match r0 with
        | b1 :: b2 :: r2 =>
            let lo := if b0 =? 224 then 160 else 128 in
            let hi := if b0 =? 237 then 159 else 191 in
            if in_range lo hi b1 && is_cont b2
            then option_map (cons ((b0 - 224) * 4096 + (b1 - 128) * 64 + (b2 - 128)))
                            (utf8_decode r2)
            else None
        | _ => None
        end
      else if in_range 240 244 b0 then
        match r0 with
        | b1 :: b2 :: b3 :: r3 =>
            let lo := if b0 =? 240 then 144 else 128 in
            let hi := if b0 =? 244 then 143 else 191 in
            if in_range lo hi b1 && is_cont b2 && is_cont b3
            then option_map
                   (cons ((b0 - 240) * 262144 + (b1 - 128) * 4096
                          + (b2 - 128) * 64 + (b3 - 128)))
                   (utf8_decode r3)
            else None
        | _ => None
        end
      else None
  end.

Definition decode (l : list byte) : option pystr := utf8_decode (map Byte.to_N l).

Local Close Scope N_scope.

(* ------------------------------------------------------------------ *)
(** ** Requests and responses *)

(** A JSON-RPC request id. *)
Inductive request_id :=
| IdInt (z : Z)
| IdStr (s : string).

(** The value bound to the handler's local [response].  [Dispatched data] is
    whatever [dispatcher.dispatch(self.server._methods, data)] builds for the
    request text [data] (the jsonrpcserver library wraps the operation's
    result, or the error it raised, into it); [ErrorResponse] is the object
    the handler builds itself on a lock timeout. *)
Inductive response :=
| Dispatched (data : pystr)
| ErrorResponse (http_status : Z) (rid : option request_id) (code : Z) (message : string).

Definition lock_timeout_message : string := "Timed out waiting for lock".

(** The parts of the server object the handler reads: whether
    [self.server.logger] and [self.server._request_cb] are not [None]. *)
Record server := mk_server {
  logger : bool;
  request_cb : bool
}.

(** What the environment does during one pass of the [while True] loop. *)
Inductive poll_result :=
| Readable (chunk : list byte)   (* poll reports data, recv(1024) returns it *)
| ReadableErr (o : oserror)      (* poll reports data, recv(1024) raises *)
| Quiet.                         (* poller.poll(500) returns [] *)

Record tick := mk_tick {
  t_poll : poll_result;
  t_stop : bool;                     (* STOP_EVENT.is_set() *)
  t_cb : option exc;                 (* request_cb(data) raises this *)
  t_lock : bool;                     (* client_lock.acquire(True, 10) *)
  t_parse : option (option request_id);
      (* Request(self.data): [None] when it raises, else the request id *)
  t_send : option oserror            (* sendall(msg) raises this *)
}.

(** What the handler does that can be observed from outside. *)
Inductive event :=
| ECallback (data : pystr)
| EAcquire
| ERelease
| EDispatch (data : pystr)
| ELogException (e : exc)
| ESendall (r : response).

(** Why the loop was left by [break]. *)
Inductive exit_reason := ExitPeerClosed | ExitStop | ExitBrokenPipe.

Inductive loop_ctl := Continue | Break (w : exit_reason).

(** How [handle()] ends: by [break] and return, by an exception propagating
    out of it (inr in the monad), or it is still running. *)
Inductive handler_exit := Closed (w : exit_reason) | StillRunning.

(* ------------------------------------------------------------------ *)
(** ** A Python-like monad: locals and the trace survive exceptions *)

Record hstate := mk_hstate {
  trace : list event;
  response_var : option response;   (* [None]: the local is unbound *)
  lock_acquired : bool
}.

Definition M (A : Type) : Type := hstate -> hstate * (A + exc).

Definition ret {A} (a : A) : M A := fun st => (st, inl a).

Definition bind {A B} (m : M A) (k : A -> M B) : M B :=
  fun st => let '(st1, r) := m st in
            match r with
            | inl a => k a st1
            | inr e => (st1, inr e)
            end.

Notation "x <- m ;; k" := (bind m (fun x => k))
  (at level 61, m at next level, right associativity).
Notation "m ;; k" := (bind m (fun _ => k))
  (at level 61, right associativity).

Definition raise {A} (e : exc) : M A := fun st => (st, inr e).

Definition emit (ev : event) : M unit :=
  fun st => (mk_hstate (trace st ++ [ev]) (response_var st) (lock_acquired st), inl tt).

Definition set_response (r : response) : M unit :=
  fun st => (mk_hstate (trace st) (Some r) (lock_acquired st), inl tt).

Definition set_lock_acquired (b : bool) : M unit :=
  fun st => (mk_hstate (trace st) (response_var st) b, inl tt).

Definition get_lock_acquired : M bool := fun st => (st, inl (lock_acquired st)).

(** Reading the local [response]. *)
Definition get_response : M response :=
  fun st => match response_var st with
            | Some r => (st, inl r)
            | None => (st, inr UnboundLocalError)
            end.

Definition raise_opt (o : option exc) : M unit :=
  match o with Some e => raise e | None => ret tt end.

(** [try: body / except Exception as e: handler(e) / finally: fin]. *)
Definition try_except_finally (body : M unit) (handler : exc -> M unit)
    (fin : M unit) : M unit :=
  fun st =>
    let '(st1, r1) := body st in
    let '(st2, r2) := match r1 with
                      | inl _ => (st1, inl tt)
                      | inr e => handler e st1
                      end in
    let '(st3, r3) := fin st2 in
    (st3, match r3 with inr e => inr e | inl _ => r2 end).

(** [try: body / except ...: handler(e)]. *)
Definition try_except {A} (body : M A) (handler : exc -> M A) : M A :=
  fun st => let '(st1, r1) := body st in
            match r1 with
            | inl a => (st1, inl a)
            | inr e => handler e st1
            end.

(* ------------------------------------------------------------------ *)
(** ** [JSONRPCHandler.handle] *)

Section Handler.

Variable s : server.

(** [logger.debug(...)]: an attribute lookup on [None] when no logger. *)
Definition logger_debug : M unit :=
  if logger s then ret tt else raise AttributeError.

(** [if logger is not None: logger.exception(e)]. *)
Definition log_exception (e : exc) : M unit :=
  if logger s then emit (ELogException e) else ret tt.

(** Lines 51-68, the body of the [try]. *)
Definition dispatch_body (t : tick) (data : pystr) : M unit :=
  (if request_cb s then emit (ECallback data) ;; raise_opt (t_cb t)
   else ret tt) ;;
  if t_lock t then
    emit EAcquire ;;
    set_lock_acquired true ;;
    logger_debug ;;
    emit (EDispatch data) ;;
    set_response (Dispatched data) ;;
    logger_debug
  else
    match t_parse t with
    | None => raise LibraryError
    | Some rid =>
        logger_debug ;;
        set_response (ErrorResponse 408 rid (-32000) lock_timeout_message)
    end.

(** Lines 49-74: [lock_acquired = False], then try/except/finally. *)
Definition dispatch_block (t : tick) (data : pystr) : M unit :=
  set_lock_acquired false ;;
  try_except_finally (dispatch_body t data) log_exception
    (b <- get_lock_acquired ;; if b then emit ERelease else ret tt).

(** Lines 76-85. *)
Definition respond_block (t : tick) : M loop_ctl :=
  try_except
    (r <- get_response ;;
     logger_debug ;;
     emit (ESendall r) ;;
     raise_opt (option_map OSErr (t_send t)) ;;
     ret Continue)
    (fun e => if except_oserror BrokenPipeError e then ret (Break ExitBrokenPipe)
              else log_exception e ;; ret Continue).

(** One pass of [while True] (lines 38-85). *)
Definition handle_iter (t : tick) : M loop_ctl :=
  match t_poll t with
  | Quiet => if t_stop t then ret (Break ExitStop) else ret Continue
  | ReadableErr o => raise (OSErr o)
  | Readable chunk =>
      match decode (strip chunk) with
      | None => raise UnicodeDecodeError
      | Some [] => ret (Break ExitPeerClosed)
      | Some data => dispatch_block t data ;; respond_block t
      end
  end.

Fixpoint handle_loop (ticks : list tick) : M handler_exit :=
  match ticks with
  | [] => ret StillRunning
  | t :: ts =>
      c <- handle_iter t ;;
      match c with
      | Continue => handle_loop ts
      | Break w => ret (Closed w)
      end
  end.

End Handler.

Definition init_hstate : hstate := mk_hstate [] None false.

(** [handle()] on a fresh connection, run on a sequence of loop passes. *)
Definition handle (s : server) (ticks : list tick) : hstate * (handler_exit + exc) :=
  handle_loop s ticks init_hstate.

(* ------------------------------------------------------------------ *)
(** ** [UnixSocketJSONRPCServer.__init__] (lines 87-104) *)

(** Outcome of [sock.connect(SOCKET_FILE_NAME)] on the probe socket. *)
Inductive probe_result :=
| ProbeConnects
| ProbeRaises (o : oserror).

(** File-system and socket actions of the constructor. *)
Inductive init_event := EProbe | EUnlink | EBind.

(** [sock_exists]: [SOCKET_FILE_NAME.exists()]; [unlink_err]: the error
    raised by [SOCKET_FILE_NAME.unlink()], if any; [bind_err]: the error
    raised by [UnixStreamServer.__init__] (bind and listen), if any.
    [EUnlink] records the call to [unlink()]. *)
Definition server_init (sock_exists : bool) (probe : probe_result)
    (unlink_err bind_err : option oserror) : list init_event * (unit + exc) :=
  let '(evs, err) :=
    if sock_exists then
      (* try: connect; raise DaemonRunningError *)
      let raised := match probe with
                    | ProbeConnects => DaemonRunningError
                    | ProbeRaises o => OSErr o
                    end in
      (* except ConnectionRefusedError: unlink(); an error of unlink()
         leaves the handler and the constructor *)
      if except_oserror ConnectionRefusedError raised
      then ([EProbe; EUnlink],
            match unlink_err with Some o => Some (OSErr o) | None => None end)
      else ([EProbe], Some raised)
    else ([], None) in
  match err with
  | Some e => (evs, inr e)
  | None => (evs ++ [EBind],
             match bind_err with Some o => inr (OSErr o) | None => inl tt end)
  end.

(* ------------------------------------------------------------------ *)
(** ** [UnixSocketServerProxy] (lines 107-154) *)

(** [__init__]: the outcome of [self.sock.connect(...)]; the library's
    [Server.__init__(endpoint)] only records the endpoint. *)
Definition proxy_init (connect_err : option oserror) : unit + exc :=
  match connect_err with
  | None => inl tt
  | Some o =>
      if except_oserror FileNotFoundError (OSErr o) then inr DaemonNotRunningError
      else if except_oserror ConnectionRefusedError (OSErr o) then inr DaemonNotRunningError
      else inr (OSErr o)
  end.

Local Open Scope N_scope.

(** UTF-8 encoding of one code point; [None] for a surrogate or a value
    beyond U+10FFFF ([str.encode()] raises). *)
Definition utf8_encode_cp (c : N) : option (list N) :=
  if c <? 128 then Some [c]
  else if c <? 2048 then Some [192 + c / 64; 128 + c mod 64]
  else if c <? 65536 then
    if in_range 55296 57343 c then None
    else Some [224 + c / 4096; 128 + (c / 64) mod 64; 128 + c mod 64]
  else if c <? 1114112 then
    Some [240 + c / 262144; 128 + (c / 4096) mod 64;
          128 + (c / 64) mod 64; 128 + c mod 64]
  else None.

Local Close Scope N_scope.

Fixpoint bytes_of_N (l : list N) : option (list byte) :=
  match l with
  | [] => Some []
  | n :: r => match Byte.of_N n, bytes_of_N r with
              | Some b, Some bs => Some (b :: bs)
              | _, _ => None
              end
  end.

(** [str.encode()]. *)
Fixpoint encode (s : pystr) : option (list byte) :=
  match s with
  | [] => Some []
  | c :: r => match utf8_encode_cp c, encode r with
              | Some ns, Some bs =>
                  match bytes_of_N ns with Some b => Some (b ++ bs) | None => None end
              | _, _ => None
              end
  end.

(** The [message] argument of [send_message]. *)
Inductive message := MStr (s : pystr) | MBytes (b : list byte).

Definition encode_message (m : message) : option (list byte) :=
  match m with MStr s => encode s | MBytes b => Some b end.

Definition last_byte (l : list byte) : option byte :=
  match rev l with b :: _ => Some b | [] => None end.

(** The reply loop of lines 143-153: [replies] are the successive results of
    [self.sock.recv(8192)]; [None] when the loop is still waiting. *)
Fixpoint read_reply (rv : pystr) (replies : list (list byte)) : option (pystr + exc) :=
  match replies with
  | [] => None
  | reply :: rest =>
      match decode reply with
      | None => Some (inr UnicodeDecodeError)
      | Some txt =>
          match last_byte reply with
          | None => Some (inr IndexError)
          | Some b => if Byte.eqb b x0a then Some (inl (rv ++ txt))
                      else read_reply (rv ++ txt) rest
          end
      end
  end.

(** [send_message(message, expect_reply)]: the bytes handed to [sendall]
    (if it is reached) and the outcome. *)
Definition send_message (m : message) (expect_reply : bool)
    (sendall_err : option oserror) (replies : list (list byte))
    : option (list byte) * option (pystr + exc) :=
  match encode_message m with
  | None => (None, Some (inr UnicodeEncodeError))
  | Some msg =>
      let frame := msg ++ [x0a] in
      match sendall_err with
      | Some o =>
          (Some frame,
           Some (inr (if is_ConnectionError o then DaemonNotRunningError else OSErr o)))
      | None =>
          (Some frame, if expect_reply then read_reply [] replies else Some (inl []))
      end
  end.

(** Python values passed to a proxy method ([args] is a tuple, sent as a
    JSON array; [kwargs] a dict). *)
Inductive pyval :=
| VNone
| VBool (b : bool)
| VInt (z : Z)
| VStr (s : string)
| VList (l : list pyval)
| VDict (d : list (string * pyval)).

Fixpoint kwargs_get (d : list (string * pyval)) (k : string) (dflt : pyval) : pyval :=
  match d with
  | [] => dflt
  | (k', v) :: r => if String.eqb k k' then v else kwargs_get r k dflt
  end.

(** Python truth value. *)
Definition truthy (v : pyval) : bool :=
  match v with
  | VNone => false
  | VBool b => b
  | VInt z => negb (Z.eqb z 0)
  | VStr s => negb (String.eqb s EmptyString)
  | VList l => negb (Nat.eqb (List.length l) 0)
  | VDict d => negb (Nat.eqb (List.length d) 0)
  end.

(** The call [attr_handler] makes on the jsonrpcclient [Server]:
    [self.request(name, *pos, **kw)] or [self.notify(name, *pos, **kw)]. *)
Inductive client_call :=
| CallRequest (name : string) (pos : list pyval) (kw : list (string * pyval))
| CallNotify (name : string) (pos : list pyval) (kw : list (string * pyval)).

(** [attr_handler], the function [__getattr__(name)] returns, called
    with positional [args] and keyword [kwargs] (lines 123-132). *)
Definition attr_handler (name : string) (args : list pyval)
    (kwargs : list (string * pyval)) : client_call :=
  if truthy (kwargs_get kwargs "response"%string (VBool true))
  then CallRequest name [VList [VDict [("args"%string, VList args); ("kwargs"%string, VDict kwargs)]]] []
  else CallNotify name args kwargs.

(* ------------------------------------------------------------------ *)
(** ** Handlers running concurrently on the shared [client_lock] *)

(** [ThreadingMixIn] runs one [handle()] per connection, all sharing
    [self.server._client_lock].  Each handler's position relative to the
    critical section of lines 53-74, with [client_lock] a mutex. *)
Module Concurrent.

Inductive pc :=
| Outside     (* polling, reading, callback, responding, or timed out *)
| Holding     (* [acquire(True, 10)] returned True, before dispatch *)
| Running     (* inside [dispatcher.dispatch]: the operation executes *)
| Returned.   (* [dispatch] returned, before the [finally] release *)

Definition pc_eqb (a b : pc) : bool :=
  match a, b with
  | Outside, Outside | Holding, Holding | Running, Running
  | Returned, Returned => true
  | _, _ => false
  end.

Record cstate := mk_cstate {
  pcs : nat -> pc;          (* handler thread i *)
  owner : option nat        (* the thread holding [client_lock] *)
}.

Inductive action :=
| AcqOk (i : nat)        (* line 53, acquire succeeds: the lock was free *)
| AcqTimeout (i : nat)   (* line 53, acquire gives up after 10 s *)
| StartOp (i : nat)      (* line 56, dispatch starts the operation *)
| EndOp (i : nat)        (* the operation returns or raises *)
| Release (i : nat).     (* line 74, [finally]: [client_lock.release()] *)

(** Entry into and exit from a registered operation, by thread. *)
Inductive op_event := Enter (i : nat) | Exit (i : nat).

Definition upd (f : nat -> pc) (i : nat) (p : pc) : nat -> pc :=
  fun j => if Nat.eqb j i then p else f j.

Definition step (st : cstate) (a : action) : option (cstate * list op_event) :=
  match a with
  | AcqOk i =>
      match owner st with
      | None => if pc_eqb (pcs st i) Outside
                then Some (mk_cstate (upd (pcs st) i Holding) (Some i), [])
                else None
      | Some _ => None
      end
  | AcqTimeout i => if pc_eqb (pcs st i) Outside then Some (st, []) else None
  | StartOp i =>
      if pc_eqb (pcs st i) Holding
      then Some (mk_cstate (upd (pcs st) i Running) (owner st), [Enter i])
      else None
  | EndOp i =>
      if pc_eqb (pcs st i) Running
      then Some (mk_cstate (upd (pcs st) i Returned) (owner st), [Exit i])
      else None
  | Release i =>
      if pc_eqb (pcs st i) Holding || pc_eqb (pcs st i) Returned
      then Some (mk_cstate (upd (pcs st) i Outside) None, [])
      else None
  end.

(** An interleaving of the threads' actions; [None] if some action is not
    enabled when scheduled. *)
Fixpoint run (st : cstate) (acts : list action) : option (cstate * list op_event) :=
  match acts with
  | [] => Some (st, [])
  | a :: r =>
      match step st a with
      | None => None
      | Some (st1, e1) =>
          match run st1 r with
          | None => None
          | Some (st2, e2) => Some (st2, e1 ++ e2)
          end
      end
  end.

Definition init : cstate := mk_cstate (fun _ => Outside) None.

(** Replays the operation events: [cur] is the thread whose operation is
    executing; [None] as soon as two operations overlap or an exit does not
    match the running operation. *)
Fixpoint serial_from (cur : option nat) (tr : list op_event) : option (option nat) :=
  match tr with
  | [] => Some cur
  | Enter i :: r => match cur with
                    | None => serial_from (Some i) r
                    | Some _ => None
                    end
  | Exit i :: r => match cur with
                   | Some j => if Nat.eqb i j then serial_from None r else None
                   | None => None
                   end
  end.

(** The invariant of the lock protocol: a thread past [acquire] owns the
    lock, and [cur] names the thread whose operation is executing. *)
Definition inv (st : cstate) (cur : option nat) : Prop :=
  (forall i, pcs st i <> Outside -> owner st = Some i) /\
  (forall i, pcs st i = Running <-> cur = Some i).

End Concurrent.

(* ------------------------------------------------------------------ *)
(** ** two1/lib/wallet/cli.py: the proxy's callers *)

Module WalletCli.

Local Open Scope string_scope.

(** An exception reaching [handle_exceptions]: its [message] attribute
    (jsonrpcclient's [ReceivedErrorResponse] has one, built from the
    daemon's error response) if it has one, and [str(e)]. *)
Record cli_exc := mk_cli_exc {
  e_message : option string;
  e_str : string
}.

Inductive cli_event :=
| LogError (msg : string)        (* logger.error(msg) *)
| LogDebugTraceback              (* logger.debug(format_tb(tb)) *)
| Echo (msg : string).           (* click.echo(msg) *)

(** How the decorated command ends: returns [rv], [ctx.exit(code)], or an
    exception escapes the wrapper. *)
Inductive wrapped (A : Type) :=
| WReturn (v : A)
| WExit (code : nat)
| WRaise (e : exc).
Arguments WReturn {A}. Arguments WExit {A}. Arguments WRaise {A}.

(** [handle_exceptions(f, custom_msg)] (lines 31-63) applied to a call of
    [f] that returns [inl v] or raises [inr e]; [has_handlers] is
    [logger.hasHandlers()].  The locals [msg] and [tb] are unbound on the
    paths that do not assign them. *)
Definition handle_exceptions {A} (custom_msg : string) (has_handlers : bool)
    (r : A + cli_exc) : list cli_event * wrapped A :=
  match r with
  | inl v => ([], WReturn v)
  | inr e =>
      let '(msg, tb) :=
        match e_message e with
        | Some m =>
            (if String.eqb m lock_timeout_message
             then Some (m ++ ". Please try again.") else None, false)
        | None =>
            (Some (if String.eqb custom_msg "" then e_str e
                   else custom_msg ++ ": " ++ e_str e), true)
        end in
      match msg with
      | None => ([], WRaise UnboundLocalError)
      | Some m =>
          if tb
          then (app [LogError m; LogDebugTraceback]
                    (if has_handlers then [] else [Echo m]), WExit 1)
          else ([LogError m], WRaise UnboundLocalError)
      end
  end.






(** The data providers [validate_data_provider] builds. *)
Inductive data_provider :=
| ChainProvider (key secret : pystr)
| TwentyOneProvider.

(** [REQUIRED_DATA_PROVIDER_PARAMS[value]]. *)
Definition required_params (value : string) : option (list string) :=
  if String.eqb value "chain" then Some ["chain_api_key_id"; "chain_api_key_secret"]
  else if String.eqb value "twentyone" then Some []
  else None.

(** [r.replace('_', '-')]. *)
Fixpoint dashes (r : string) : string :=
  match r with
  | EmptyString => EmptyString
  | String c t =>
      String (if Ascii.eqb c "_"%char then "-"%char else c) (dashes t)
  end.

(** [ctx.params]: parameter name to value ([None] is Python's [None]). *)
Definition params := list (string * option pystr).

Fixpoint lookup (ps : params) (k : string) : option (option pystr) :=
  match ps with
  | [] => None
  | (k', v) :: r => if String.eqb k k' then Some v else lookup r k
  end.

Inductive vdp_outcome :=
| VFail (msg : string)                            (* ctx.fail(msg) *)
| VOk (dp : data_provider) (dp_params : params)   (* ctx.obj entries *)
| VRaise (e : exc).

(** The [for r in required] loop: echoed lines, collected parameters, and
    [fail]. *)
Fixpoint check_required (value : string) (ps : params) (req : list string)
    : list string * params * bool :=
  match req with
  | [] => ([], [], false)
  | r :: rest =>
      let '(echos, got, fail) := check_required value ps rest in
      match lookup ps r with
      | None => (("--" ++ dashes r ++ " is required to use " ++ value ++ ".") :: echos,
                 got, true)
      | Some v => (echos, (r, v) :: got, fail)
      end
  end.

Section Validate.

(** [str.isalnum()], decided by the Unicode character database. *)
Variable isalnum : pystr -> bool.

(** [validate_data_provider(ctx, param, value)] (lines 93-137): echoed
    lines and outcome.  [len(None)] raises [TypeError], modelled as
    [LibraryError]. *)
Definition validate_data_provider (ps : params) (value : string)
    : list string * vdp_outcome :=
  match required_params value with
  | None => ([], VFail ("Unknown data provider " ++ value))
  | Some req =>
      let '(echos, got, fail) := check_required value ps req in
      if fail then (echos, VFail "One or more required arguments are missing.")
      else if String.eqb value "chain" then
        match lookup ps "chain_api_key_id", lookup ps "chain_api_key_secret" with
        | Some key, Some secret =>
            match key with
            | None => (echos, VRaise LibraryError)
            | Some k =>
                if negb (Nat.eqb (List.length k) 32)
                then (echos, VFail "Invalid chain_api_key_id or chain_api_key_secret")
                else match secret with
                     | None => (echos, VRaise LibraryError)
                     | Some sc =>
                         if negb (Nat.eqb (List.length sc) 32) || negb (isalnum k)
                            || negb (isalnum sc)
                         then (echos, VFail "Invalid chain_api_key_id or chain_api_key_secret")
                         else (echos, VOk (ChainProvider k sc) got)
                     end
            end
        | _, _ => (echos, VRaise LibraryError)   (* KeyError; not reached *)
        end
      else (echos, VOk TwentyOneProvider got)
  end.

End Validate.

Local Close Scope string_scope.

End WalletCli.

(* ------------------------------------------------------------------ *)
(** ** Sample inputs *)

Definition ascii_bytes (t : string) : list byte := list_byte_of_string t.

(** b'{"id":7,"method":"balance"}\n', a request frame from the proxy. *)
Definition bytes_req : list byte :=
  [x7b; x22] ++ ascii_bytes "id" ++ [x22; x3a; x37; x2c; x22] ++ ascii_bytes "method"
  ++ [x22; x3a; x22] ++ ascii_bytes "balance" ++ [x22; x7d; x0a].

(** The request text the handler passes on: the frame without its newline. *)
Definition data_req : pystr := map Byte.to_N (removelast bytes_req).

Definition tick_of (p : poll_result) (cb : option exc) (lock : bool)
    (parse : option (option request_id)) (send : option oserror) : tick :=
  mk_tick p false cb lock parse send.

(** The payloads handed to [sendall], in order. *)
Fixpoint sends (tr : list event) : list response :=
  match tr with
  | [] => []
  | ESendall r :: rest => r :: sends rest
  | _ :: rest => sends rest
  end.

Definition is_lock_event (ev : event) : bool :=
  match ev with EAcquire | ERelease => true | _ => false end.

Definition lock_events (tr : list event) : list event := filter is_lock_event tr.

Definition tick_ff : tick := tick_of (Readable [xff]) None true (Some None) None.

Definition tick_cb_fails : tick :=
  tick_of (Readable bytes_req) (Some LibraryError) true (Some None) None.

Definition option_list {A} (o : option A) : list A :=
  match o with Some x => [x] | None => [] end.

Ltac new_events :=
  first [ exists []; rewrite app_nil_r; split; [reflexivity | simpl; auto]
        | eexists; split; [rewrite <- ?app_assoc; reflexivity | simpl; auto] ].

(** Replays a handler trace against the lock: [None] when an acquire
    happens while held, a release while not held, or a dispatch while the
    lock is not held; otherwise whether the lock is held at the end. *)
Fixpoint lock_replay (held : bool) (tr : list event) : option bool :=
  match tr with
  | [] => Some held
  | EAcquire :: r => if held then None else lock_replay true r
  | ERelease :: r => if held then lock_replay false r else None
  | EDispatch _ :: r => if held then lock_replay held r else None
  | _ :: r => lock_replay held r
  end.

(** A loop pass that reads [chunk], gets the lock, and writes successfully. *)
Definition request_tick (chunk : list byte) : tick :=
  tick_of (Readable chunk) None true (Some None) None.

(** The request text the handler makes of [chunk], if it is not empty. *)
Definition request_text (chunk : list byte) : option pystr :=
  match decode (strip chunk) with
  | Some (c :: d) => Some (c :: d)
  | _ => None
  end.

(** The events of a request handled under the lock and answered. *)
Definition answered (cb : bool) (d : pystr) : list event :=
  (if cb then [ECallback d] else [])
  ++ [EAcquire; EDispatch d; ERelease; ESendall (Dispatched d)].

(* ================================================================== *)
(** * Properties *)

Example strip_newline : strip [x0a] = [].
Proof. reflexivity. Qed.

Example decode_ff : decode [xff] = None.
Proof. reflexivity. Qed.

Example decode_euro : decode [xe2; x82; xac] = Some [8364%N].
Proof. reflexivity. Qed.

Example strip_request : decode (strip bytes_req) = Some data_req.
Proof. reflexivity. Qed.

(** A request handled with the lock: acquire, dispatch, release, write. *)
Example handle_ok :
  handle (mk_server true false)
    [tick_of (Readable bytes_req) None true (Some None) None]
  = (mk_hstate [EAcquire; EDispatch data_req; ERelease; ESendall (Dispatched data_req)]
               (Some (Dispatched data_req)) true, inl StillRunning).
Proof. reflexivity. Qed.

(** A lock timeout with a logger: the lock-timeout error response. *)
Example handle_timeout :
  sends (trace (fst (handle (mk_server true false)
    [tick_of (Readable bytes_req) None false (Some (Some (IdInt 7))) None])))
  = [ErrorResponse 408 (Some (IdInt 7)) (-32000) lock_timeout_message].
Proof. reflexivity. Qed.

(* ------------------------------------------------------------------ *)
(** ** Whitespace-only chunks *)

Lemma lstrip_all_space (l : list byte) :
  forallb py_isspace l = true -> lstrip l = [].
Proof.
  induction l as [|b r IH]; simpl; [reflexivity|].
  intro H. apply andb_prop in H as [Hb Hr]. rewrite Hb. exact (IH Hr).
Qed.

Lemma strip_all_space (l : list byte) :
  forallb py_isspace l = true -> strip l = [].
Proof. intro H. unfold strip. rewrite (lstrip_all_space l H). reflexivity. Qed.

(** C10: a chunk made only of whitespace bytes is handled exactly like a
    peer close: the pass leaves the loop by [break] with the handler's state
    untouched, so nothing is dispatched, called back or written. *)
Theorem whitespace_chunk_is_peer_close (s : server) (t : tick) (st : hstate)
    (chunk : list byte) :
  t_poll t = Readable chunk ->
  forallb py_isspace chunk = true ->
  handle_iter s t st = (st, inl (Break ExitPeerClosed)) /\
  handle_iter s t st
  = handle_iter s (mk_tick (Readable []) (t_stop t) (t_cb t) (t_lock t)
                     (t_parse t) (t_send t)) st.
Proof.
  intros Hp Hs. unfold handle_iter. rewrite Hp. simpl.
  rewrite (strip_all_space chunk Hs). split; reflexivity.
Qed.

Lemma whitespace_chunk_is_peer_close_witness :
  t_poll (tick_of (Readable [x0a; x20; x0d; x0a]) None true (Some None) None)
  = Readable [x0a; x20; x0d; x0a] /\
  forallb py_isspace [x0a; x20; x0d; x0a] = true /\
  handle_iter (mk_server true true)
    (tick_of (Readable [x0a; x20; x0d; x0a]) None true (Some None) None) init_hstate
  = (init_hstate, inl (Break ExitPeerClosed)) /\
  handle_iter (mk_server true true)
    (tick_of (Readable [x0a; x20; x0d; x0a]) None true (Some None) None) init_hstate
  = handle_iter (mk_server true true)
      (mk_tick (Readable []) false None true (Some None) None) init_hstate.
Proof.
  split; [reflexivity|]. split; [reflexivity|].
  apply (whitespace_chunk_is_peer_close (mk_server true true)
           (tick_of (Readable [x0a; x20; x0d; x0a]) None true (Some None) None)
           init_hstate [x0a; x20; x0d; x0a]); reflexivity.
Defined.

(* ------------------------------------------------------------------ *)
(** ** Server construction *)

(** C3 (corrected): a live daemon at the socket path aborts construction
    with [DaemonRunningError] before any bind; after a refused connection
    the constructor calls [unlink()] on the file and goes on to bind only if
    the unlink succeeds; an error of the unlink leaves the constructor and
    nothing is bound. *)
Theorem server_init_live_or_stale (unlink_err bind_err : option oserror) :
  server_init true ProbeConnects unlink_err bind_err
  = ([EProbe], inr DaemonRunningError) /\
  server_init true (ProbeRaises ConnectionRefusedError) unlink_err bind_err
  = match unlink_err with
    | None => ([EProbe; EUnlink; EBind],
               match bind_err with Some o => inr (OSErr o) | None => inl tt end)
    | Some o => ([EProbe; EUnlink], inr (OSErr o))
    end.
Proof. split; [reflexivity | destruct unlink_err; reflexivity]. Qed.

(** C3 (counterexample): a world-writable file of another user at the path
    in the sticky [/tmp] is refused by [connect] (it is not a listening
    socket) and [unlink()] raises [PermissionError]: the stale file is not
    removed and construction does not reach the bind. *)
Theorem stale_socket_unlink_fails :
  server_init true (ProbeRaises ConnectionRefusedError) (Some PermissionError) None
  = ([EProbe; EUnlink], inr (OSErr PermissionError)) /\
  ~ In EBind (fst (server_init true (ProbeRaises ConnectionRefusedError)
                     (Some PermissionError) None)).
Proof. split; [reflexivity | simpl; intuition discriminate]. Qed.

(** No file at the path: bind directly. *)
Lemma server_init_absent (p : probe_result) (unlink_err bind_err : option oserror) :
  server_init false p unlink_err bind_err
  = ([EBind], match bind_err with Some o => inr (OSErr o) | None => inl tt end).
Proof. reflexivity. Qed.

(* ------------------------------------------------------------------ *)
(** ** Client proxy *)

(** C5: the proxy constructor raises [DaemonNotRunningError] exactly for a
    missing socket file or a refused connection, and a [ConnectionError]
    raised by [sendall] in [send_message] comes out as
    [DaemonNotRunningError] (other socket errors are re-raised as they are). *)
Theorem proxy_daemon_not_running :
  (forall c : option oserror,
     proxy_init c = inr DaemonNotRunningError <->
     c = Some FileNotFoundError \/ c = Some ConnectionRefusedError) /\
  (forall (m : message) (expect_reply : bool) (o : oserror) (replies : list (list byte)),
     snd (send_message m expect_reply (Some o) replies)
     = Some (inr (match encode_message m with
                  | None => UnicodeEncodeError
                  | Some _ => if is_ConnectionError o then DaemonNotRunningError
                              else OSErr o
                  end))).
Proof.
  split.
  - intros [o|]; simpl.
    + destruct o; simpl; split; intro H;
        solve [ reflexivity | auto | discriminate
              | destruct H as [H|H]; discriminate ].
    + split; [discriminate | intros [H|H]; discriminate].
  - intros m e o r. unfold send_message. destruct (encode_message m); reflexivity.
Qed.

Local Open Scope string_scope.

(** C6: a call with [response=False] hands the raw positional and keyword
    arguments to [notify], while the request path wraps them as
    [{"args": ..., "kwargs": ...}]. *)
Theorem notify_params_not_wrapped :
  attr_handler "send_to" [VStr "1Addr"; VInt 10000] [("response", VBool false)]
  = CallNotify "send_to" [VStr "1Addr"; VInt 10000] [("response", VBool false)] /\
  attr_handler "send_to" [VStr "1Addr"; VInt 10000] []
  = CallRequest "send_to"
      [VList [VDict [("args", VList [VStr "1Addr"; VInt 10000]); ("kwargs", VDict [])]]] [].
Proof. split; reflexivity. Qed.

Local Close Scope string_scope.

(* ------------------------------------------------------------------ *)
(** ** The lock is released on every path *)

(** C7: in every pass of the handler loop (whatever the environment does,
    exceptions included) the lock events the pass adds are either none or
    one acquire followed by one release: the lock is released exactly when it
    was acquired in that pass, and never left held. *)
Theorem handle_iter_releases_lock (s : server) (t : tick) (st : hstate) :
  exists new,
    trace (fst (handle_iter s t st)) = trace st ++ new /\
    (lock_events new = [] \/ lock_events new = [EAcquire; ERelease]).
Proof.
  destruct st as [tr rv la].
  destruct s as [lg cb], t as [p stop tcb lk parse snd].
  unfold handle_iter; simpl.
  destruct p as [chunk|o|].
  - destruct (decode (strip chunk)) as [[|c d]|];
      [ exists []; rewrite app_nil_r; auto
      | | exists []; rewrite app_nil_r; auto ].
    destruct lg, cb, tcb, lk, parse as [[rid|]|], snd as [[]|], rv;
      simpl; new_events.
  - exists []; rewrite app_nil_r; auto.
  - destruct stop; exists []; rewrite app_nil_r; auto.
Qed.

Lemma sends_app (a b : list event) : sends (a ++ b) = sends a ++ sends b.
Proof.
  induction a as [|ev r IH]; [reflexivity|].
  destruct ev; simpl; rewrite ?IH; reflexivity.
Qed.

(* ------------------------------------------------------------------ *)
(** ** Lock timeout *)

(** On a lock timeout the operation is never dispatched, whatever else
    happens in the pass. *)
Lemma timeout_never_dispatches (s : server) (t : tick) (data : pystr) (st : hstate) :
  t_lock t = false ->
  exists new, trace (fst (dispatch_block s t data st)) = trace st ++ new /\
              forall x, ~ In (EDispatch x) new.
Proof.
  intros Hl. destruct st as [tr rv la].
  destruct s as [lg cb], t as [p stop tcb lk parse snd]; simpl in Hl; subst lk.
  destruct lg, cb, tcb, parse as [[rid|]|]; simpl;
    first [ exists []; rewrite app_nil_r; split; [reflexivity | simpl; tauto]
          | eexists; split; [rewrite <- ?app_assoc; reflexivity
                            | simpl; intros x Hx; intuition discriminate] ].
Qed.

(** With a logger, a request whose callback (if any) returns and that the
    library parses gets the lock-timeout error response, carrying its id. *)
Lemma timeout_error_response (cb : bool) (t : tick) (data : pystr) (st : hstate)
    (rid : option request_id) :
  t_lock t = false -> t_cb t = None -> t_parse t = Some rid ->
  response_var (fst (dispatch_block (mk_server true cb) t data st))
  = Some (ErrorResponse 408 rid (-32000) lock_timeout_message).
Proof.
  intros Hl Hc Hp. destruct t as [p stop tcb lk parse snd]; simpl in *; subst.
  destruct cb; reflexivity.
Qed.

(** C1 (failing input): with the constructor's default [logger=None], the
    timeout branch calls [logger.debug] on [None]; the [AttributeError] is
    swallowed, no error response is built and nothing is written back. *)
Theorem lock_timeout_without_logger :
  handle (mk_server false false)
    [tick_of (Readable bytes_req) None false (Some (Some (IdInt 7))) None]
  = (mk_hstate [] None false, inl StillRunning).
Proof. reflexivity. Qed.

(* ------------------------------------------------------------------ *)
(** ** Writing the response *)

(** The write block never raises: it breaks out of the loop only on a
    [BrokenPipeError] from [sendall], otherwise the loop goes on. *)
Lemma respond_block_outcome (s : server) (t : tick) (st : hstate) :
  snd (respond_block s t st)
  = inl (match response_var st, logger s, t_send t with
         | Some _, true, Some BrokenPipeError => Break ExitBrokenPipe
         | _, _, _ => Continue
         end).
Proof.
  destruct st as [tr [r|] la], s as [[] cb], t as [p stop tcb lk parse [[]|]];
    reflexivity.
Qed.

(** C4 (failing input): a chunk that is not UTF-8 makes [bytes.decode()]
    raise outside every [try] of [handle()]; the exception leaves the
    handler. *)
Theorem non_utf8_chunk_escapes_handler (s : server) (st : hstate) :
  handle_iter s tick_ff st = (st, inr UnicodeDecodeError) /\
  snd (handle s [tick_ff]) = inr UnicodeDecodeError.
Proof. split; reflexivity. Qed.

(** C8 (failing input): after a request handled and answered normally, the
    loop is re-entered, and the next chunk b"\xff" ends [handle()] by an
    exception rather than by one of its [break]s. *)
Theorem handler_exits_by_exception_after_success :
  handle (mk_server true false)
    [tick_of (Readable bytes_req) None true (Some None) None; tick_ff]
  = (mk_hstate [EAcquire; EDispatch data_req; ERelease; ESendall (Dispatched data_req)]
               (Some (Dispatched data_req)) true, inr UnicodeDecodeError).
Proof. reflexivity. Qed.

(* ------------------------------------------------------------------ *)
(** ** A failed dispatch block re-uses the previous response *)

(** C9 (amended): when the body of the dispatch [try] raises, no response
    has been assigned for the current request, and the write block hands
    [sendall] the response last assigned on this connection (the local
    [response]), or nothing when none has been assigned yet; without a
    logger the write block stops at [logger.debug] and writes nothing. *)
Theorem failed_dispatch_resends_last_response (s : server) (t : tick) (data : pystr)
    (st st' : hstate) (e : exc) :
  dispatch_body s t data (mk_hstate (trace st) (response_var st) false) = (st', inr e) ->
  response_var st' = response_var st /\
  sends (trace (fst ((dispatch_block s t data ;; respond_block s t) st)))
  = sends (trace st) ++ (if logger s then option_list (response_var st) else []).
Proof.
  destruct st as [tr rv la].
  destruct s as [lg cb], t as [p stop tcb lk parse snd]; simpl.
  destruct lg, cb, tcb, lk, parse as [[rid|]|], snd as [[]|], rv;
    simpl; intro H; inversion H; subst; simpl;
    rewrite ?sends_app; simpl; rewrite ?app_nil_r; auto.
Qed.

Lemma failed_dispatch_resends_last_response_witness :
  dispatch_body (mk_server true true) tick_cb_fails data_req
    (mk_hstate [] (Some (Dispatched [1%N])) false)
  = (mk_hstate [ECallback data_req] (Some (Dispatched [1%N])) false, inr LibraryError) /\
  response_var (mk_hstate [ECallback data_req] (Some (Dispatched [1%N])) false)
  = response_var (mk_hstate [] (Some (Dispatched [1%N])) false) /\
  sends (trace (fst ((dispatch_block (mk_server true true) tick_cb_fails data_req ;;
                      respond_block (mk_server true true) tick_cb_fails)
                     (mk_hstate [] (Some (Dispatched [1%N])) false))))
  = sends [] ++ (if logger (mk_server true true)
                 then option_list (Some (Dispatched [1%N])) else []).
Proof.
  split; [reflexivity|].
  apply (failed_dispatch_resends_last_response (mk_server true true) tick_cb_fails
           data_req (mk_hstate [] (Some (Dispatched [1%N])) false)
           (mk_hstate [ECallback data_req] (Some (Dispatched [1%N])) false) LibraryError).
  reflexivity.
Defined.

(** C9 (counterexample): two requests on a fresh connection whose callback
    raises: the second is a later request, yet [sendall] is never called. *)
Theorem two_failed_requests_send_nothing :
  handle (mk_server true true) [tick_cb_fails; tick_cb_fails]
  = (mk_hstate [ECallback data_req; ELogException LibraryError;
                ELogException UnboundLocalError;
                ECallback data_req; ELogException LibraryError;
                ELogException UnboundLocalError] None false, inl StillRunning) /\
  sends (trace (fst (handle (mk_server true true) [tick_cb_fails; tick_cb_fails]))) = [].
Proof. split; reflexivity. Qed.

(* ------------------------------------------------------------------ *)
(** ** Mutual exclusion of dispatched operations *)

Section Mutex.
Import Concurrent.

Lemma pc_eqb_eq (a b : pc) : pc_eqb a b = true <-> a = b.
Proof. destruct a, b; simpl; split; congruence. Qed.

Lemma serial_from_app (cur : option nat) (a b : list op_event) :
  serial_from cur (a ++ b)
  = match serial_from cur a with Some c => serial_from c b | None => None end.
Proof.
  revert cur; induction a as [|ev r IH]; intro cur; [reflexivity|].
  destruct ev as [i|i]; simpl; destruct cur as [j|]; auto.
  destruct (Nat.eqb i j); auto.
Qed.

Lemma upd_same (f : nat -> pc) i p : upd f i p i = p.
Proof. unfold upd. rewrite Nat.eqb_refl. reflexivity. Qed.

Lemma upd_other (f : nat -> pc) i j p : j <> i -> upd f i p j = f j.
Proof. intro H. unfold upd. apply Nat.eqb_neq in H. rewrite H. reflexivity. Qed.

Lemma step_inv (st : cstate) (cur : option nat) (a : action) st' evs :
  inv st cur -> step st a = Some (st', evs) ->
  exists cur', serial_from cur evs = Some cur' /\ inv st' cur'.
Proof.
  intros [I1 I2] Hs.
  destruct a as [i|i|i|i|i]; simpl in Hs.
  - (* AcqOk *)
    destruct (owner st) eqn:Ho; [discriminate|].
    destruct (pc_eqb (pcs st i) Outside) eqn:Hp; [|discriminate].
    apply pc_eqb_eq in Hp. inversion Hs; subst; clear Hs.
    exists cur; split; [reflexivity|split]; simpl.
    + intros j Hj. destruct (Nat.eq_dec j i) as [->|Hne]; [reflexivity|].
      rewrite upd_other in Hj by exact Hne. pose proof (I1 j Hj). congruence.
    + intro j. destruct (Nat.eq_dec j i) as [->|Hne].
      * rewrite upd_same. split; [discriminate|].
        intro Hc. apply I2 in Hc. congruence.
      * rewrite upd_other by exact Hne. apply I2.
  - (* AcqTimeout *)
    destruct (pc_eqb (pcs st i) Outside); [|discriminate].
    inversion Hs; subst. exists cur; split; [reflexivity|split; assumption].
  - (* StartOp *)
    destruct (pc_eqb (pcs st i) Holding) eqn:Hp; [|discriminate].
    apply pc_eqb_eq in Hp. inversion Hs; subst; clear Hs.
    assert (Hown : owner st = Some i) by (apply I1; congruence).
    assert (Hcur : cur = None).
    { destruct cur as [j|]; [|reflexivity].
      assert (Hj : pcs st j = Running) by (apply I2; reflexivity).
      assert (owner st = Some j) by (apply I1; congruence).
      assert (j = i) by congruence. subst. congruence. }
    subst cur. exists (Some i); split; [reflexivity|split]; simpl.
    + intros j Hj. destruct (Nat.eq_dec j i) as [->|Hne]; [exact Hown|].
      rewrite upd_other in Hj by exact Hne. exact (I1 j Hj).
    + intro j. destruct (Nat.eq_dec j i) as [->|Hne].
      * rewrite upd_same. split; reflexivity.
      * rewrite upd_other by exact Hne. split.
        -- intro Hj. assert (owner st = Some j) by (apply I1; congruence).
           congruence.
        -- intro Hc. congruence.
  - (* EndOp *)
    destruct (pc_eqb (pcs st i) Running) eqn:Hp; [|discriminate].
    apply pc_eqb_eq in Hp. inversion Hs; subst; clear Hs.
    assert (Hcur : cur = Some i) by (apply I2; exact Hp).
    assert (Hown : owner st = Some i) by (apply I1; congruence).
    subst cur. exists None; split; [simpl; rewrite Nat.eqb_refl; reflexivity|split]; simpl.
    + intros j Hj. destruct (Nat.eq_dec j i) as [->|Hne]; [exact Hown|].
      rewrite upd_other in Hj by exact Hne. exact (I1 j Hj).
    + intro j. destruct (Nat.eq_dec j i) as [->|Hne].
      * rewrite upd_same. split; discriminate.
      * rewrite upd_other by exact Hne. split; [|discriminate].
        intro Hj. assert (owner st = Some j) by (apply I1; congruence).
        congruence.
  - (* Release *)
    destruct (pc_eqb (pcs st i) Holding || pc_eqb (pcs st i) Returned) eqn:Hp;
      [|discriminate].
    assert (Hp' : pcs st i = Holding \/ pcs st i = Returned).
    { apply orb_prop in Hp as [H|H]; apply pc_eqb_eq in H; auto. }
    inversion Hs; subst; clear Hs.
    assert (Hown : owner st = Some i) by (apply I1; destruct Hp' as [H|H]; congruence).
    exists cur; split; [reflexivity|split]; simpl.
    + intros j Hj. destruct (Nat.eq_dec j i) as [->|Hne].
      * rewrite upd_same in Hj. congruence.
      * rewrite upd_other in Hj by exact Hne.
        assert (owner st = Some j) by (apply I1; exact Hj). congruence.
    + intro j. destruct (Nat.eq_dec j i) as [->|Hne].
      * rewrite upd_same. split; [discriminate|].
        intro Hc. apply I2 in Hc. destruct Hp' as [H|H]; congruence.
      * rewrite upd_other by exact Hne. apply I2.
Qed.

Lemma run_inv (acts : list action) : forall st cur st' tr,
  inv st cur -> run st acts = Some (st', tr) ->
  exists cur', serial_from cur tr = Some cur' /\ inv st' cur'.
Proof.
  induction acts as [|a r IH]; intros st cur st' tr Hi Hr; simpl in Hr.
  - inversion Hr; subst. exists cur; split; [reflexivity|exact Hi].
  - destruct (step st a) as [[st1 e1]|] eqn:Hs; [|discriminate].
    destruct (run st1 r) as [[st2 e2]|] eqn:Hr2; [|discriminate].
    inversion Hr; subst; clear Hr.
    destruct (step_inv st cur a st1 e1 Hi Hs) as [c1 [Hc1 Hi1]].
    destruct (IH st1 c1 st' e2 Hi1 Hr2) as [c2 [Hc2 Hi2]].
    exists c2; split; [|exact Hi2].
    rewrite serial_from_app, Hc1. exact Hc2.
Qed.

Lemma init_inv : inv init None.
Proof.
  split; simpl.
  - intros i H. congruence.
  - intro i. split; discriminate.
Qed.

End Mutex.

(** C2: in every interleaving of the connection handlers, a thread runs a
    registered operation only while it owns [client_lock], and the
    operations' entries and exits never overlap: each operation's execution
    wholly precedes or follows every other's. *)
Theorem dispatched_operations_never_interleave (acts : list Concurrent.action) :
  match Concurrent.run Concurrent.init acts with
  | Some (st, tr) =>
      Concurrent.serial_from None tr <> None /\
      (forall i, Concurrent.pcs st i = Concurrent.Running ->
                 Concurrent.owner st = Some i)
  | None => True
  end.
Proof.
  destruct (Concurrent.run Concurrent.init acts) as [[st tr]|] eqn:Hr; [|exact I].
  destruct (run_inv acts Concurrent.init None st tr init_inv Hr) as [c [Hc [I1 _]]].
  split.
  - rewrite Hc. discriminate.
  - intros i Hi. apply I1. rewrite Hi. discriminate.
Qed.

Example interleaving_sample :
  Concurrent.run Concurrent.init
    [Concurrent.AcqOk 1; Concurrent.AcqTimeout 2; Concurrent.StartOp 1;
     Concurrent.EndOp 1; Concurrent.Release 1; Concurrent.AcqOk 2;
     Concurrent.StartOp 2; Concurrent.EndOp 2; Concurrent.Release 2]
  <> None /\
  Concurrent.run Concurrent.init [Concurrent.AcqOk 1; Concurrent.AcqOk 2] = None.
Proof. split; [discriminate | reflexivity]. Qed.

(* ================================================================== *)
(** * Further properties of the handler loop *)

(** The stop signal ends the loop only on a pass where poll reports no
    data and [STOP_EVENT] is set; a pass that reads data never stops. *)
Theorem handle_iter_stops_iff (s : server) (t : tick) (st : hstate) :
  snd (handle_iter s t st) = inl (Break ExitStop) <->
  t_poll t = Quiet /\ t_stop t = true.
Proof.
  destruct st as [tr rv la].
  destruct s as [lg cb], t as [p stop tcb lk parse snd]; simpl.
  destruct p as [chunk|o|].
  - unfold handle_iter; simpl.
    destruct (decode (strip chunk)) as [[|c d]|];
      [ split; [discriminate | intros [H _]; discriminate] | |
        split; [discriminate | intros [H _]; discriminate] ].
    destruct lg, cb, tcb, lk, parse as [[rid|]|], snd as [[]|], rv; simpl;
      split; solve [ discriminate | intros [H _]; discriminate ].
  - simpl. split; [discriminate | intros [H _]; discriminate].
  - destruct stop; simpl; split; auto; intros; try discriminate.
    destruct H; discriminate.
Qed.

Lemma handle_iter_request (cb : bool) (c : list byte) (d : pystr) (st : hstate) :
  request_text c = Some d ->
  handle_iter (mk_server true cb) (request_tick c) st
  = (mk_hstate (trace st ++ answered cb d) (Some (Dispatched d)) true, inl Continue).
Proof.
  unfold request_text. intro H.
  destruct (decode (strip c)) as [[|x y]|] eqn:E; try discriminate.
  injection H as <-. destruct st as [tr rv la].
  unfold handle_iter, request_tick, tick_of; simpl. rewrite E.
  destruct cb; cbn; rewrite <- ?app_assoc; reflexivity.
Qed.

(** With a logger, a connection carrying requests that all get the lock and
    are written successfully answers each request, in order, with the
    response dispatched for it, and keeps the connection open. *)
Theorem requests_answered_in_order (cb : bool) (chunks : list (list byte))
    (ds : list pystr) (st : hstate) :
  Forall2 (fun c d => request_text c = Some d) chunks ds ->
  trace (fst (handle_loop (mk_server true cb) (map request_tick chunks) st))
  = trace st ++ flat_map (answered cb) ds /\
  snd (handle_loop (mk_server true cb) (map request_tick chunks) st) = inl StillRunning.
Proof.
  intro H. revert st. induction H as [|c d cs ds' Hcd _ IH]; intro st.
  - simpl. rewrite app_nil_r. split; reflexivity.
  - simpl. unfold bind. rewrite (handle_iter_request cb c d st Hcd).
    destruct (IH (mk_hstate (trace st ++ answered cb d) (Some (Dispatched d)) true))
      as [IH1 IH2].
    split; [|exact IH2]. rewrite IH1. simpl. rewrite <- app_assoc. reflexivity.
Qed.

Lemma requests_answered_in_order_witness :
  Forall2 (fun c d => request_text c = Some d) [bytes_req; bytes_req] [data_req; data_req] /\
  trace (fst (handle_loop (mk_server true true) (map request_tick [bytes_req; bytes_req])
                init_hstate))
  = trace init_hstate ++ flat_map (answered true) [data_req; data_req] /\
  snd (handle_loop (mk_server true true) (map request_tick [bytes_req; bytes_req])
         init_hstate) = inl StillRunning.
Proof.
  assert (H : Forall2 (fun c d => request_text c = Some d)
                [bytes_req; bytes_req] [data_req; data_req])
    by (repeat constructor).
  split; [exact H|].
  exact (requests_answered_in_order true [bytes_req; bytes_req] [data_req; data_req]
           init_hstate H).
Defined.

Lemma lock_replay_app (h : bool) (a b : list event) :
  lock_replay h (a ++ b)
  = match lock_replay h a with Some h' => lock_replay h' b | None => None end.
Proof.
  revert h; induction a as [|ev a IH]; intro h; [reflexivity|].
  destruct ev; simpl; try apply IH; destruct h; try apply IH; reflexivity.
Qed.

Lemma handle_iter_lock_replay (s : server) (t : tick) (st : hstate) :
  exists new, trace (fst (handle_iter s t st)) = trace st ++ new /\
              lock_replay false new = Some false.
Proof.
  destruct st as [tr rv la].
  destruct s as [lg cb], t as [p stop tcb lk parse snd].
  unfold handle_iter; simpl.
  destruct p as [chunk|o|].
  - destruct (decode (strip chunk)) as [[|c d]|];
      [ exists []; rewrite app_nil_r; auto
      | | exists []; rewrite app_nil_r; auto ].
    destruct lg, cb, tcb, lk, parse as [[rid|]|], snd as [[]|], rv;
      simpl; new_events.
  - exists []; rewrite app_nil_r; auto.
  - destruct stop; exists []; rewrite app_nil_r; auto.
Qed.

Lemma handle_loop_lock_replay (s : server) (ticks : list tick) (st : hstate) :
  exists new, trace (fst (handle_loop s ticks st)) = trace st ++ new /\
              lock_replay false new = Some false.
Proof.
  revert st; induction ticks as [|t ts IH]; intro st.
  - exists []; rewrite app_nil_r; auto.
  - simpl. unfold bind.
    destruct (handle_iter_lock_replay s t st) as [n1 [E1 L1]].
    destruct (handle_iter s t st) as [st1 [c|e]] eqn:Ei; simpl in E1.
    + destruct c.
      * destruct (IH st1) as [n2 [E2 L2]]. exists (n1 ++ n2).
        rewrite E2, E1, app_assoc. split; [reflexivity|].
        rewrite lock_replay_app, L1. exact L2.
      * exists n1. simpl. auto.
    + exists n1. simpl. auto.
Qed.

(** Over a whole connection, whatever the polls, callbacks, lock timeouts,
    parse results and write errors, the handler never acquires the lock
    twice, never releases it unheld, dispatches only while holding it, and
    has released it when the handler returns or raises. *)
Theorem handle_lock_discipline (s : server) (ticks : list tick) :
  lock_replay false (trace (fst (handle s ticks))) = Some false.
Proof.
  unfold handle. destruct (handle_loop_lock_replay s ticks init_hstate) as [n [E L]].
  rewrite E. exact L.
Qed.

(** When a request callback is registered, it is called with the request
    text before anything else the pass does, in particular before the lock
    is tried, so it also sees requests that later time out or fail. *)
Theorem callback_runs_first (lg : bool) (t : tick) (st : hstate)
    (chunk : list byte) (d : pystr) :
  t_poll t = Readable chunk -> request_text chunk = Some d ->
  exists rest,
    trace (fst (handle_iter (mk_server lg true) t st)) = trace st ++ ECallback d :: rest.
Proof.
  intros Hp Hd. unfold request_text in Hd.
  destruct (decode (strip chunk)) as [[|x y]|] eqn:E; try discriminate.
  injection Hd as <-.
  destruct st as [tr rv la], t as [p stop tcb lk parse snd]; simpl in Hp; subst p.
  unfold handle_iter; simpl. rewrite E.
  destruct lg, tcb, lk, parse as [[rid|]|], snd as [[]|], rv; cbn;
    eexists; rewrite <- ?app_assoc; reflexivity.
Qed.

Lemma callback_runs_first_witness :
  exists rest,
    trace (fst (handle_iter (mk_server true true) tick_cb_fails init_hstate))
    = trace init_hstate ++ ECallback data_req :: rest.
Proof.
  apply (callback_runs_first true tick_cb_fails init_hstate bytes_req data_req);
    reflexivity.
Defined.

(** If probing an existing socket file fails with any error other than
    [ConnectionRefusedError], the constructor raises that error: the file is
    not unlinked and nothing is bound. *)
Theorem probe_error_propagates (o : oserror) (unlink_err bind_err : option oserror) :
  o <> ConnectionRefusedError ->
  server_init true (ProbeRaises o) unlink_err bind_err = ([EProbe], inr (OSErr o)).
Proof.
  intro H. destruct o; try (exfalso; apply H; reflexivity); reflexivity.
Qed.

Lemma probe_error_propagates_witness :
  server_init true (ProbeRaises PermissionError) None None
  = ([EProbe], inr (OSErr PermissionError)).
Proof. apply probe_error_propagates. discriminate. Defined.

(** ** Framing of [send_message] against the handler's reading *)

Ltac nlia := zify; Z.to_euclidean_division_equations; lia.

Lemma in_range_true (lo hi c : N) : (lo <= c <= hi)%N -> in_range lo hi c = true.
Proof.
  intros [H1 H2]. unfold in_range. apply andb_true_intro; split; apply N.leb_le; assumption.
Qed.

Lemma in_range_false (lo hi c : N) : (c < lo \/ hi < c)%N -> in_range lo hi c = false.
Proof.
  intro H. unfold in_range. apply andb_false_iff.
  destruct H; [left | right]; apply N.leb_gt; assumption.
Qed.

Lemma in_range_false_inv (lo hi c : N) : in_range lo hi c = false -> (c < lo \/ hi < c)%N.
Proof.
  unfold in_range. intro H. apply andb_false_iff in H.
  destruct H as [H|H]; apply N.leb_gt in H; [left | right]; assumption.
Qed.

Lemma is_cont_true (c : N) : (128 <= c < 192)%N -> is_cont c = true.
Proof.
  intros [H1 H2]. unfold is_cont.
  apply andb_true_intro; split; [apply N.leb_le | apply N.ltb_lt]; assumption.
Qed.

Lemma ltb_false (a b : N) : (b <= a)%N -> (a <? b)%N = false.
Proof. apply N.ltb_ge. Qed.

Lemma utf8_decode_2 (b0 b1 : N) (rest : list N) :
  in_range 194 223 b0 = true -> is_cont b1 = true ->
  utf8_decode (b0 :: b1 :: rest)
  = option_map (cons ((b0 - 192) * 64 + (b1 - 128))%N) (utf8_decode rest).
Proof.
  intros H0 H1. cbn [utf8_decode].
  assert (L : (194 <= b0)%N) by (apply andb_prop in H0; apply N.leb_le, H0).
  rewrite (ltb_false b0 128), H0, H1 by lia. reflexivity.
Qed.

Lemma utf8_decode_3 (b0 b1 b2 : N) (rest : list N) :
  in_range 224 239 b0 = true ->
  in_range (if (b0 =? 224)%N then 160 else 128) (if (b0 =? 237)%N then 159 else 191) b1
    = true ->
  is_cont b2 = true ->
  utf8_decode (b0 :: b1 :: b2 :: rest)
  = option_map (cons ((b0 - 224) * 4096 + (b1 - 128) * 64 + (b2 - 128))%N)
               (utf8_decode rest).
Proof.
  intros H0 H1 H2. cbn [utf8_decode].
  assert (L : (224 <= b0)%N) by (apply andb_prop in H0; apply N.leb_le, H0).
  rewrite (ltb_false b0 128), (in_range_false 194 223 b0), H0, H1, H2 by lia.
  reflexivity.
Qed.

Lemma utf8_decode_4 (b0 b1 b2 b3 : N) (rest : list N) :
  in_range 240 244 b0 = true ->
  in_range (if (b0 =? 240)%N then 144 else 128) (if (b0 =? 244)%N then 143 else 191) b1
    = true ->
  is_cont b2 = true -> is_cont b3 = true ->
  utf8_decode (b0 :: b1 :: b2 :: b3 :: rest)
  = option_map (cons ((b0 - 240) * 262144 + (b1 - 128) * 4096
                      + (b2 - 128) * 64 + (b3 - 128))%N)
               (utf8_decode rest).
Proof.
  intros H0 H1 H2 H3. cbn [utf8_decode].
  assert (L : (240 <= b0)%N) by (apply andb_prop in H0; apply N.leb_le, H0).
  rewrite (ltb_false b0 128), (in_range_false 194 223 b0),
    (in_range_false 224 239 b0), H0, H1, H2, H3 by lia.
  reflexivity.
Qed.

Lemma utf8_decode_cp (c : N) (ns rest : list N) :
  utf8_encode_cp c = Some ns ->
  utf8_decode (ns ++ rest) = option_map (cons c) (utf8_decode rest).
Proof.
  unfold utf8_encode_cp. intro H.
  destruct (N.ltb_spec c 128) as [H1|H1].
  { injection H as <-. cbn [utf8_decode app].
    rewrite (proj2 (N.ltb_lt c 128) H1). reflexivity. }
  destruct (N.ltb_spec c 2048) as [H2|H2].
  { assert (E : ns = [192 + c / 64; 128 + c mod 64]%N) by congruence. subst ns.
    cbn [app]. rewrite utf8_decode_2;
      [ f_equal; f_equal; nlia | apply in_range_true; nlia | apply is_cont_true; nlia ]. }
  destruct (N.ltb_spec c 65536) as [H3|H3].
  { destruct (in_range 55296 57343 c) eqn:Es; [discriminate|].
    apply in_range_false_inv in Es.
    assert (E : ns = [224 + c / 4096; 128 + (c / 64) mod 64; 128 + c mod 64]%N)
      by congruence.
    subst ns. cbn [app].
    rewrite utf8_decode_3;
      [ f_equal; f_equal; nlia
      | apply in_range_true; nlia
      | | apply is_cont_true; nlia ].
    destruct (N.eqb_spec (224 + c / 4096) 224), (N.eqb_spec (224 + c / 4096) 237);
      apply in_range_true; nlia. }
  destruct (N.ltb_spec c 1114112) as [H4|H4]; [|discriminate].
  assert (E : ns = [240 + c / 262144; 128 + (c / 4096) mod 64;
                   128 + (c / 64) mod 64; 128 + c mod 64]%N) by congruence.
  subst ns. cbn [app]. rewrite utf8_decode_4;
    [ f_equal; f_equal; nlia
    | apply in_range_true; nlia
    | | apply is_cont_true; nlia | apply is_cont_true; nlia ].
  destruct (N.eqb_spec (240 + c / 262144) 240), (N.eqb_spec (240 + c / 262144) 244);
    apply in_range_true; nlia.
Qed.

Lemma bytes_of_N_to_N (ns : list N) (b : list byte) :
  bytes_of_N ns = Some b -> map Byte.to_N b = ns.
Proof.
  revert b; induction ns as [|n r IH]; intros b H; simpl in H.
  - injection H as <-. reflexivity.
  - destruct (Byte.of_N n) as [x|] eqn:E1; [|discriminate].
    destruct (bytes_of_N r) as [bs|] eqn:E2; [|discriminate].
    injection H as <-. simpl. rewrite (Byte.to_of_N n E1), (IH bs eq_refl).
    reflexivity.
Qed.

(** [bytes.decode()] undoes [str.encode()]. *)
Lemma decode_encode (s : pystr) (b : list byte) : encode s = Some b -> decode b = Some s.
Proof.
  unfold decode. revert b; induction s as [|c r IH]; intros b H; simpl in H.
  - injection H as <-. reflexivity.
  - destruct (utf8_encode_cp c) as [ns|] eqn:E1; [|discriminate].
    destruct (encode r) as [bs|] eqn:E2; [|discriminate].
    destruct (bytes_of_N ns) as [b0|] eqn:E3; [|discriminate].
    injection H as <-. rewrite map_app, (bytes_of_N_to_N ns b0 E3).
    rewrite (utf8_decode_cp c ns _ E1), (IH bs eq_refl). reflexivity.
Qed.

Lemma lstrip_snoc_space (l : list byte) (w : byte) :
  py_isspace w = true ->
  lstrip (l ++ [w]) = if forallb py_isspace l then [] else lstrip l ++ [w].
Proof.
  intro Hw. induction l as [|x l IH]; simpl.
  - rewrite Hw. reflexivity.
  - destruct (py_isspace x); simpl; [exact IH | reflexivity].
Qed.

(** Trailing whitespace does not change [bytes.strip()]. *)
Lemma strip_snoc_space (l : list byte) (w : byte) :
  py_isspace w = true -> strip (l ++ [w]) = strip l.
Proof.
  intro Hw. unfold strip. rewrite (lstrip_snoc_space l w Hw).
  destruct (forallb py_isspace l) eqn:E.
  - rewrite (lstrip_all_space l E). reflexivity.
  - rewrite rev_app_distr. simpl. rewrite Hw. reflexivity.
Qed.

(** A text message that encodes and has no surrounding whitespace is
    framed by [send_message] as its encoding followed by a newline, and the
    handler's [strip] and [decode] of that frame give back the same text:
    the newline framing is transparent to the server. *)
Theorem send_frame_read_back (s : pystr) (b : list byte) (expect_reply : bool)
    (replies : list (list byte)) :
  encode s = Some b -> strip b = b ->
  fst (send_message (MStr s) expect_reply None replies) = Some (b ++ [x0a]) /\
  decode (strip (b ++ [x0a])) = Some s.
Proof.
  intros He Hs. split.
  - unfold send_message. simpl. rewrite He. reflexivity.
  - rewrite strip_snoc_space by reflexivity. rewrite Hs. apply decode_encode, He.
Qed.

Lemma send_frame_read_back_witness :
  fst (send_message (MStr data_req) true None []) = Some (removelast bytes_req ++ [x0a]) /\
  decode (strip (removelast bytes_req ++ [x0a])) = Some data_req.
Proof. apply send_frame_read_back; vm_compute; reflexivity. Defined.

(** The proxy's reply loop concatenates the decoded chunks it receives up
    to and including the first one whose last byte is a newline, and reads
    nothing after it. *)
Theorem read_reply_accumulates (rv : pystr) (chunks : list (list byte)) (ds : list pystr)
    (final : list byte) (t : pystr) (rest : list (list byte)) :
  Forall2 (fun c d => decode c = Some d) chunks ds ->
  Forall (fun c => exists b, last_byte c = Some b /\ b <> x0a) chunks ->
  decode final = Some t -> last_byte final = Some x0a ->
  read_reply rv (chunks ++ final :: rest) = Some (inl (rv ++ List.concat ds ++ t)).
Proof.
  intros H2 H1 Hf Hl. revert rv H1.
  induction H2 as [|c d cs ds' Hcd _ IH]; intros rv H1; simpl.
  - rewrite Hf, Hl. reflexivity.
  - inversion H1 as [|? ? [b [Hb Hne]] H1']; subst.
    rewrite Hcd, Hb.
    destruct (Byte.eqb b x0a) eqn:E; [apply Byte.byte_dec_bl in E; contradiction|].
    rewrite (IH (rv ++ d) H1'), <- !app_assoc. reflexivity.
Qed.

Lemma read_reply_accumulates_witness :
  read_reply [] [[x7b]; [x7d; x0a]; [xff]] = Some (inl ([] ++ List.concat [[123%N]] ++ [125%N; 10%N])).
Proof.
  apply (read_reply_accumulates [] [[x7b]] [[123%N]] [x7d; x0a] [125%N; 10%N] [[xff]]).
  - repeat constructor.
  - repeat constructor. exists x7b. split; [reflexivity | discriminate].
  - reflexivity.
  - reflexivity.
Defined.

(** ** The wallet command line *)

Section CliProperties.

Import WalletCli.
Local Open Scope string_scope.


(** A command wrapped by [handle_exceptions] that raises ends with
    [ctx.exit(code=1)] exactly when the exception has no [message]
    attribute; an exception that has one (as the daemon's error responses
    have) escapes the wrapper as [UnboundLocalError] instead. *)
Theorem handle_exceptions_outcome {A : Type} (custom_msg : string) (has_handlers : bool)
    (e : cli_exc) :
  snd (handle_exceptions (A:=A) custom_msg has_handlers (inr e))
  = match e_message e with None => WExit 1 | Some _ => WRaise UnboundLocalError end.
Proof.
  destruct e as [[m|] s]; simpl; [|reflexivity].
  destruct (String.eqb m lock_timeout_message); reflexivity.
Qed.

(** [handle_exceptions] prints an error on the terminal only when the
    logger has no handlers and the exception has no [message] attribute;
    the text is [str(e)], prefixed by the custom message when there is one. *)
Theorem handle_exceptions_echo {A : Type} (custom_msg : string) (has_handlers : bool)
    (e : cli_exc) (m : string) :
  In (Echo m) (fst (handle_exceptions (A:=A) custom_msg has_handlers (inr e))) <->
  has_handlers = false /\ e_message e = None /\
  m = (if String.eqb custom_msg "" then e_str e else custom_msg ++ ": " ++ e_str e).
Proof.
  destruct e as [[msg|] s]; simpl.
  - destruct (String.eqb msg lock_timeout_message); simpl;
      split; [intros [H|[]]; discriminate | intros [_ [H _]]; discriminate
             | intros [] | intros [_ [H _]]; discriminate].
  - destruct has_handlers; simpl.
    + split; [intros [H|[H|[]]]; discriminate | intros [H _]; discriminate].
    + split.
      * intros [H|[H|[H|[]]]]; try discriminate. injection H as <-. auto.
      * intros [_ [_ ->]]. right; right; left. reflexivity.
Qed.


Lemma check_required_spec (value : string) (ps : params) (req : list string) :
  let missing := fun r => match lookup ps r with None => true | Some _ => false end in
  check_required value ps req
  = (map (fun r => "--" ++ dashes r ++ " is required to use " ++ value ++ ".")
         (filter missing req),
     flat_map (fun r => match lookup ps r with None => [] | Some v => [(r, v)] end) req,
     existsb missing req).
Proof.
  cbv zeta. induction req as [|r rest IH]; [reflexivity|].
  simpl. rewrite IH. destruct (lookup ps r); reflexivity.
Qed.

(** When a parameter the chosen provider needs is absent, the validation
    prints one line per absent parameter, in the order of the provider's
    list, and then fails with the generic message. *)
Theorem validate_reports_missing (isalnum : pystr -> bool) (ps : params)
    (value : string) (req : list string) :
  required_params value = Some req ->
  (exists r, In r req /\ lookup ps r = None) ->
  validate_data_provider isalnum ps value
  = (map (fun r => "--" ++ dashes r ++ " is required to use " ++ value ++ ".")
         (filter (fun r => match lookup ps r with None => true | Some _ => false end) req),
     VFail "One or more required arguments are missing.").
Proof.
  intros Hr [r [Hin Hl]]. unfold validate_data_provider. rewrite Hr, check_required_spec.
  cbv zeta.
  replace (existsb _ req) with true; [reflexivity|].
  symmetry. apply existsb_exists. exists r. rewrite Hl. auto.
Qed.

Lemma validate_reports_missing_witness :
  validate_data_provider (fun _ => true) [] "chain"
  = (["--chain-api-key-id is required to use chain.";
      "--chain-api-key-secret is required to use chain."],
     VFail "One or more required arguments are missing.").
Proof.
  rewrite (validate_reports_missing (fun _ => true) [] "chain"
             ["chain_api_key_id"; "chain_api_key_secret"]).
  - reflexivity.
  - reflexivity.
  - exists "chain_api_key_id". split; [left; reflexivity | reflexivity].
Defined.

(** The chain provider is built only from a key id and a secret that are
    both present, both 32 characters long and both alphanumeric; nothing is
    echoed and the recorded parameters are exactly these two values. *)
Theorem validate_chain_ok (isalnum : pystr -> bool) (ps : params)
    (echos : list string) (dp : data_provider) (got : params) :
  validate_data_provider isalnum ps "chain" = (echos, VOk dp got) ->
  exists k sc,
    dp = ChainProvider k sc /\
    lookup ps "chain_api_key_id" = Some (Some k) /\
    lookup ps "chain_api_key_secret" = Some (Some sc) /\
    List.length k = 32 /\ List.length sc = 32 /\
    isalnum k = true /\ isalnum sc = true /\
    got = [("chain_api_key_id", Some k); ("chain_api_key_secret", Some sc)] /\
    echos = [].
Proof.
  unfold validate_data_provider. simpl.
  destruct (lookup ps "chain_api_key_id") as [[k|]|] eqn:E1; simpl;
  destruct (lookup ps "chain_api_key_secret") as [[sc|]|] eqn:E2; simpl;
    try discriminate;
  destruct (Nat.eqb_spec (List.length k) 32); simpl; try discriminate.
  destruct (Nat.eqb_spec (List.length sc) 32); simpl; [|discriminate].
  destruct (isalnum k) eqn:Ek, (isalnum sc) eqn:Es; simpl; try discriminate.
  intro H. injection H as <- <- <-.
  exists k, sc. repeat split; assumption.
Qed.

Lemma validate_chain_ok_witness :
  exists k sc,
    ChainProvider (repeat 97%N 32) (repeat 98%N 32) = ChainProvider k sc /\
    lookup [("chain_api_key_id", Some (repeat 97%N 32));
            ("chain_api_key_secret", Some (repeat 98%N 32))] "chain_api_key_id"
      = Some (Some k) /\
    lookup [("chain_api_key_id", Some (repeat 97%N 32));
            ("chain_api_key_secret", Some (repeat 98%N 32))] "chain_api_key_secret"
      = Some (Some sc) /\
    List.length k = 32 /\ List.length sc = 32 /\
    (fun _ : pystr => true) k = true /\ (fun _ : pystr => true) sc = true /\
    [("chain_api_key_id", Some (repeat 97%N 32));
     ("chain_api_key_secret", Some (repeat 98%N 32))]
      = [("chain_api_key_id", Some k); ("chain_api_key_secret", Some sc)] /\
    @nil string = [].
Proof.
  apply (validate_chain_ok (fun _ => true)
           [("chain_api_key_id", Some (repeat 97%N 32));
            ("chain_api_key_secret", Some (repeat 98%N 32))]).
  reflexivity.
Defined.

Local Close Scope string_scope.

End CliProperties.
